(** * SmartResizer: a shallow embedding of [SmartResizer.process]

    Source: src/SmartResizer/SmartResizer.py.

    Python floats are IEEE binary64 and the torch/numpy samples are
    float32.  Both are modelled exactly: a value is a rational number and
    every floating-point operation is the exact operation followed by
    rounding to nearest, ties to even, at the precision of the format
    ([f64], [f32]).  The exponent range is not bounded: the values this
    code computes from tensor shapes (int64) stay far from overflow and
    from the subnormal range. *)

From Stdlib Require Import ZArith QArith Qround Qpower Qabs Lia Lqa.
From Stdlib Require Import String List Bool.
Import ListNotations.

Open Scope Q_scope.

(** ** Floating-point rounding *)

Definition Qltb (x y : Q) : bool := negb (Qle_bool y x).

Definition pow2 (e : Z) : Q := (2 # 1) ^ e.

(** Round to the nearest integer, ties to even.  This is also Python's
    built-in [round] on floats. *)
Definition rne (q : Q) : Z :=
  let f := Qfloor q in
  match Qcompare (q - inject_Z f) (1 # 2) with
  | Lt => f
  | Gt => (f + 1)%Z
  | Eq => if Z.even f then f else (f + 1)%Z
  end.

(** Exponent of a positive [x] at precision [p]: the [e] with
    [2^(p-1) <= x * 2^-e < 2^p]. *)
Definition fexp (p : Z) (x : Q) : Z :=
  let e0 := (Z.log2 (Qnum x) - Z.log2 (Zpos (Qden x)) - (p - 1))%Z in
  if Qltb (x * pow2 (- e0)) (pow2 (p - 1)) then (e0 - 1)%Z else e0.

Definition round_pos (p : Z) (x : Q) : Q :=
  let e := fexp p x in inject_Z (rne (x * pow2 (- e))) * pow2 e.

Definition round_prec (p : Z) (x : Q) : Q :=
  let x := Qred x in
  if Qltb 0 x then round_pos p x
  else if Qltb x 0 then - round_pos p (- x)
  else 0.

(** binary64 (Python [float]) and binary32 ([np.float32]). *)
Definition f64 (x : Q) : Q := round_prec 53 x.
Definition f32 (x : Q) : Q := round_prec 24 x.

(** Python's [int(x)] on a float: truncation toward zero. *)
Definition py_int (x : Q) : Z :=
  if Qle_bool 0 x then Qfloor x else (- Qfloor (- x))%Z.

(** Python [//] on ints is floor division, [Z.div]. *)

(** Python true division and multiplication of ints and floats: the exact
    result rounded to binary64. *)
Definition fdiv (a b : Q) : Q := f64 (a / b).
Definition fmul (a b : Q) : Q := f64 (a * b).
Definition fsub (a b : Q) : Q := f64 (a - b).

(** Python's [min(a, b)] keeps [a] unless [b < a]. *)
Definition py_min (a b : Q) : Q := if Qltb b a then b else a.

(** ** Step 1 of [process]: is the image "square-ish"? *)

Definition ar_square : Q := 1.
Definition ar_wide_landscape : Q := fdiv 16 9.
Definition ar_wide_portrait : Q := fdiv 9 16.

Definition aspect_ratio (original_width original_height : Z) : Q :=
  if ((original_height =? 0) || (original_width =? 0))%Z then 1
  else fdiv (inject_Z original_width) (inject_Z original_height).

Definition diff_to_square (aspect_ratio : Q) : Q :=
  Qabs (fsub aspect_ratio ar_square).

Definition diff_to_wide (aspect_ratio : Q) : Q :=
  py_min (Qabs (fsub aspect_ratio ar_wide_landscape))
         (Qabs (fsub aspect_ratio ar_wide_portrait)).

Definition is_square_ish_of (aspect_ratio : Q) : bool :=
  Qltb (diff_to_square aspect_ratio) (diff_to_wide aspect_ratio).

(** ** Step 2: target dimensions from the preset *)

Definition select_target (resolution_preset : string) (is_square_ish : bool)
    (original_width original_height : Z) : Z * Z :=
  if String.eqb resolution_preset "480p" then
    if is_square_ish then (512, 512)%Z
    else if (original_width <? original_height)%Z then (480, 852)%Z
    else (852, 480)%Z
  else if String.eqb resolution_preset "720p" then
    if is_square_ish then (768, 768)%Z
    else if (original_width <? original_height)%Z then (720, 1280)%Z
    else (1280, 720)%Z
  else (0, 0)%Z.

Definition target_dims (resolution_preset : string) (original_width original_height : Z)
    : Z * Z :=
  select_target resolution_preset
    (is_square_ish_of (aspect_ratio original_width original_height))
    original_width original_height.

(** ** Python exceptions *)

Inductive py_exn := ValueError | TypeError | ZeroDivisionError | RuntimeError.

Inductive result (A : Type) : Type :=
| Ok : A -> result A
| Err : py_exn -> result A.
Arguments Ok {A} _.
Arguments Err {A} _.

Definition bind {A B} (m : result A) (f : A -> result B) : result B :=
  match m with Ok a => f a | Err e => Err e end.

Notation "'let*' x ':=' m 'in' f" := (bind m (fun x => f))
  (at level 200, x name, m at level 100, f at level 200).

(** ** Step 3, pad mode: scaled size and paste offset *)

Definition pad_plan (img_width img_height target_width target_height : Z)
    : Z * Z * Z * Z :=
  let original_aspect_ratio :=
    if negb (img_height =? 0)%Z then fdiv (inject_Z img_width) (inject_Z img_height)
    else 1 in
  let target_aspect_ratio :=
    if negb (target_height =? 0)%Z
    then fdiv (inject_Z target_width) (inject_Z target_height) else 1 in
  let '(scaled_width, scaled_height) :=
    if Qltb target_aspect_ratio original_aspect_ratio then
      (target_width, py_int (fdiv (inject_Z target_width) original_aspect_ratio))
    else
      (py_int (fmul (inject_Z target_height) original_aspect_ratio), target_height) in
  let paste_x := ((target_width - scaled_width) / 2)%Z in
  let paste_y := ((target_height - scaled_height) / 2)%Z in
  (scaled_width, scaled_height, paste_x, paste_y).

(** ** Step 3, crop mode: scaled size and crop box *)

Definition crop_plan (img_width img_height target_width target_height : Z)
    : result (Z * Z * (Q * Q * Q * Q)) :=
  if (img_height =? 0)%Z then Err ZeroDivisionError
  else if (target_height =? 0)%Z then Err ZeroDivisionError
  else
  let* nwh :=
    if Qltb (fdiv (inject_Z target_width) (inject_Z target_height))
            (fdiv (inject_Z img_width) (inject_Z img_height)) then
      Ok (py_int (fmul (inject_Z img_width)
                       (fdiv (inject_Z target_height) (inject_Z img_height))),
          target_height)
    else if (img_width =? 0)%Z then Err ZeroDivisionError
    else
      Ok (target_width,
          py_int (fmul (inject_Z img_height)
                       (fdiv (inject_Z target_width) (inject_Z img_width)))) in
  let '(new_width, new_height) := nwh in
  let left := fdiv (inject_Z (new_width - target_width)) 2 in
  let top := fdiv (inject_Z (new_height - target_height)) 2 in
  let right := fdiv (inject_Z (new_width + target_width)) 2 in
  let bottom := fdiv (inject_Z (new_height + target_height)) 2 in
  Ok (new_width, new_height, (left, top, right, bottom)).

(** ** Pillow images

    Only the modes this code can create occur: [Image.fromarray] maps an
    [(H, W, C)] uint8 array to "LA", "RGB" or "RGBA" for [C] = 2, 3, 4 and
    raises [TypeError] otherwise.  A pixel is the list of its band values. *)

Inductive pil_mode := LA | RGB | RGBA.

Definition bands (m : pil_mode) : Z :=
  match m with LA => 2 | RGB => 3 | RGBA => 4 end%Z.

Record pil_image := {
  im_mode : pil_mode;
  im_width : Z;
  im_height : Z;
  im_pixel : Z -> Z -> list Z   (* x, y *)
}.

(** A float32 image tensor [img_tensor[y][x][c]] of shape (H, W, C). *)
Record tensor3 := {
  t_height : Z;
  t_width : Z;
  t_channels : Z;
  t_at : Z -> Z -> Z -> Q   (* y, x, c *)
}.

(** The input batch: a tensor of shape (N, H, W, C). *)
Record batch := {
  b_height : Z;
  b_width : Z;
  b_channels : Z;
  b_images : list (Z -> Z -> Z -> Q)
}.

Definition np_clip (a lo hi : Q) : Q :=
  if Qltb a lo then lo else if Qltb hi a then hi else a.

(** [np.clip(255. * x, 0, 255).astype(np.uint8)] on a float32 sample. *)
Definition to_byte (x : Q) : Z := py_int (np_clip (f32 (255 * x)) 0 255).

Fixpoint zrange (n : nat) : list Z :=
  match n with O => [] | S k => zrange k ++ [Z.of_nat k] end.

(** The uint8 typemap of [Image.fromarray] on an [(H, W, C)] array. *)
Definition mode_of_channels (c : Z) : result pil_mode :=
  if (c =? 2)%Z then Ok LA
  else if (c =? 3)%Z then Ok RGB
  else if (c =? 4)%Z then Ok RGBA
  else Err TypeError.

Definition fromarray (t : tensor3) : result pil_image :=
  let* m := mode_of_channels (t_channels t) in
  Ok {| im_mode := m; im_width := t_width t; im_height := t_height t;
        im_pixel := fun x y =>
          map (fun c => to_byte (t_at t y x c)) (zrange (Z.to_nat (t_channels t))) |}.

(** [im.resize((w, h), LANCZOS)].  The filter's pixel values are a
    parameter: [resample im w h x y] is the resampled pixel. *)
Definition pil_resize (resample : pil_image -> Z -> Z -> Z -> Z -> list Z)
    (im : pil_image) (w h : Z) : result pil_image :=
  if ((w =? im_width im) && (h =? im_height im))%Z then Ok im
  else if ((w <? 1) || (h <? 1))%Z then Err ValueError
  else Ok {| im_mode := im_mode im; im_width := w; im_height := h;
             im_pixel := resample im w h |}.

(** [Image.new('RGB', (w, h), (0, 0, 0))]. *)
Definition pil_new_black (w h : Z) : result pil_image :=
  if ((w <? 0) || (h <? 0))%Z then Err ValueError
  else Ok {| im_mode := RGB; im_width := w; im_height := h;
             im_pixel := fun _ _ => [0; 0; 0]%Z |}.

(** A pixel of mode [m] as written into an "RGB" image by [paste]:
    "LA" and "RGBA" are copied raw (Pillow stores "LA" as L, L, L, A). *)
Definition rgb_paste_pixel (m : pil_mode) (px : list Z) : list Z :=
  match m with
  | LA => let l := nth 0 px 0%Z in [l; l; l]
  | RGB => px
  | RGBA => firstn 3 px
  end.

(** [background.paste(im, (px, py))] on an "RGB" background. *)
Definition pil_paste (bg im : pil_image) (px py : Z) : pil_image :=
  {| im_mode := im_mode bg; im_width := im_width bg; im_height := im_height bg;
     im_pixel := fun x y =>
       if ((px <=? x) && (x <? px + im_width im) &&
           (py <=? y) && (y <? py + im_height im))%Z
       then rgb_paste_pixel (im_mode im) (im_pixel im (x - px) (y - py))
       else im_pixel bg x y |}.

(** [im.crop((left, top, right, bottom))]: each coordinate goes through
    Python's [round]; pixels outside the source are zero. *)
Definition pil_crop (im : pil_image) (box : Q * Q * Q * Q) : pil_image :=
  let '(l, t, r, b) := box in
  let x0 := rne l in let y0 := rne t in
  let x1 := rne r in let y1 := rne b in
  {| im_mode := im_mode im;
     im_width := Z.max 0 (x1 - x0); im_height := Z.max 0 (y1 - y0);
     im_pixel := fun x y =>
       let sx := (x + x0)%Z in let sy := (y + y0)%Z in
       if ((0 <=? sx) && (sx <? im_width im) && (0 <=? sy) && (sy <? im_height im))%Z
       then im_pixel im sx sy
       else repeat 0%Z (Z.to_nat (bands (im_mode im))) |}.

(** [np.array(im).astype(np.float32) / 255.0] *)
Definition to_tensor (im : pil_image) : tensor3 :=
  {| t_height := im_height im; t_width := im_width im;
     t_channels := bands (im_mode im);
     t_at := fun y x c => f32 (inject_Z (nth (Z.to_nat c) (im_pixel im x y) 0%Z) / 255) |}.

(** One iteration of the loop over the batch. *)
Definition process_image (resample : pil_image -> Z -> Z -> Z -> Z -> list Z)
    (target_width target_height : Z) (pad_image : bool) (img_tensor : tensor3)
    : result tensor3 :=
  let* pil_img := fromarray img_tensor in
  let img_width := im_width pil_img in
  let img_height := im_height pil_img in
  let* final_pil_img :=
    if pad_image then
      let '(scaled_width, scaled_height, paste_x, paste_y) :=
        pad_plan img_width img_height target_width target_height in
      let* resized_img := pil_resize resample pil_img scaled_width scaled_height in
      let* background := pil_new_black target_width target_height in
      Ok (pil_paste background resized_img paste_x paste_y)
    else
      let* plan := crop_plan img_width img_height target_width target_height in
      let '(new_width, new_height, box) := plan in
      let* resized_img := pil_resize resample pil_img new_width new_height in
      Ok (pil_crop resized_img box) in
  Ok (to_tensor final_pil_img).

Fixpoint map_result {A B} (f : A -> result B) (l : list A) : result (list B) :=
  match l with
  | [] => Ok []
  | a :: l' => let* b := f a in let* bs := map_result f l' in Ok (b :: bs)
  end.

Definition batch_item (image : batch) (img : Z -> Z -> Z -> Q) : tensor3 :=
  {| t_height := b_height image; t_width := b_width image;
     t_channels := b_channels image; t_at := img |}.

(** [SmartResizer.process]; [torch.stack] of an empty list raises. *)
Definition process (resample : pil_image -> Z -> Z -> Z -> Z -> list Z)
    (image : batch) (resolution_preset : string) (pad_image : bool)
    : result (list tensor3 * Z * Z) :=
  let original_height := b_height image in
  let original_width := b_width image in
  let '(target_width, target_height) :=
    target_dims resolution_preset original_width original_height in
  let* processed_images :=
    map_result (fun img => process_image resample target_width target_height pad_image
                             (batch_item image img))
               (b_images image) in
  match processed_images with
  | [] => Err RuntimeError
  | _ => Ok (processed_images, target_width, target_height)
  end.

(** ** Lemmas on rounding *)

Lemma Qltb_iff x y : Qltb x y = true <-> x < y.
Proof.
  unfold Qltb. rewrite negb_true_iff. split; intro H.
  - apply Qnot_le_lt. intro H'. apply Qle_bool_iff in H'. congruence.
  - destruct (Qle_bool y x) eqn:E; [|reflexivity].
    apply Qle_bool_iff in E. exfalso. apply (Qlt_not_le _ _ H E).
Qed.

Lemma Qltb_false x y : Qltb x y = false <-> y <= x.
Proof.
  unfold Qltb. rewrite negb_false_iff. apply Qle_bool_iff.
Qed.

Lemma rne_bounds q :
  inject_Z (rne q) - q <= 1 # 2 /\ q - inject_Z (rne q) <= 1 # 2.
Proof.
  unfold rne. set (f := Qfloor q).
  pose proof (Qfloor_le q) as H1. pose proof (Qlt_floor q) as H2.
  fold f in H1, H2. rewrite inject_Z_plus in H2. change (inject_Z 1) with 1 in H2.
  destruct (Qcompare_spec (q - inject_Z f) (1 # 2)) as [E|E|E].
  - destruct (Z.even f); rewrite ?inject_Z_plus; change (inject_Z 1) with 1;
      split; lra.
  - split; lra.
  - rewrite inject_Z_plus. change (inject_Z 1) with 1. split; lra.
Qed.

Lemma rne_floor q : (Qfloor q <= rne q <= Qfloor q + 1)%Z.
Proof.
  unfold rne. destruct (Qcompare _ _); [destruct (Z.even _)|..]; lia.
Qed.

Lemma rne_mono q1 q2 : q1 <= q2 -> (rne q1 <= rne q2)%Z.
Proof.
  intro H. pose proof (Qfloor_resp_le _ _ H) as Hf.
  destruct (Z.eq_dec (Qfloor q1) (Qfloor q2)) as [E|E].
  - unfold rne. rewrite E. set (f := Qfloor q2) in *.
    assert (q1 - inject_Z f <= q2 - inject_Z f) by lra.
    destruct (Qcompare_spec (q1 - inject_Z f) (1 # 2)) as [E1|E1|E1];
    destruct (Qcompare_spec (q2 - inject_Z f) (1 # 2)) as [E2|E2|E2];
    try (destruct (Z.even f)); try lia; exfalso; lra.
  - pose proof (rne_floor q1). pose proof (rne_floor q2). lia.
Qed.

Lemma rne_Z z : rne (inject_Z z) = z.
Proof.
  unfold rne. rewrite Qfloor_Z.
  replace (inject_Z z - inject_Z z ?= 1 # 2) with Lt; [reflexivity|].
  symmetry. rewrite <- Qlt_alt. lra.
Qed.

Lemma rne_proper q1 q2 : q1 == q2 -> rne q1 = rne q2.
Proof.
  intro H. apply Z.le_antisymm; apply rne_mono; lra.
Qed.

Lemma pow2_pos e : 0 < pow2 e.
Proof. apply Qpower_0_lt. reflexivity. Qed.

Lemma pow2_add a b : pow2 (a + b) == pow2 a * pow2 b.
Proof. apply Qpower_plus. discriminate. Qed.

Lemma pow2_le a b : (a <= b)%Z -> pow2 a <= pow2 b.
Proof. intro H. apply Qpower_le_compat_l; [exact H | discriminate]. Qed.

Lemma pow2_lt a b : (a < b)%Z -> pow2 a < pow2 b.
Proof. intro H. apply Qpower_lt_compat_l; [exact H | reflexivity]. Qed.

Lemma pow2_Z n : (0 <= n)%Z -> pow2 n == inject_Z (2 ^ n).
Proof. intro H. unfold pow2. rewrite Zpower_Qpower by exact H. reflexivity. Qed.

Lemma pow2_succ e : pow2 (e + 1) == 2 * pow2 e.
Proof. rewrite pow2_add. unfold pow2 at 2. simpl. ring. Qed.

Lemma pow2_cancel e : pow2 (- e) * pow2 e == 1.
Proof.
  rewrite <- pow2_add. replace (- e + e)%Z with 0%Z by lia. reflexivity.
Qed.

Lemma log2_bounds (n : Z) :
  (0 < n)%Z -> pow2 (Z.log2 n) <= inject_Z n /\ inject_Z n < pow2 (Z.log2 n + 1).
Proof.
  intro Hn. pose proof (Z.log2_spec n Hn) as [H1 H2].
  pose proof (Z.log2_nonneg n).
  rewrite !pow2_Z by lia. rewrite <- Z.add_1_r in H2.
  split; [rewrite <- Zle_Qle | rewrite <- Zlt_Qlt]; lia.
Qed.

Lemma fexp_guess p x (Hx : 0 < x) :
  let e0 := (Z.log2 (Qnum x) - Z.log2 (Zpos (Qden x)) - (p - 1))%Z in
  pow2 (p - 1) < 2 * (x * pow2 (- e0)) /\ x * pow2 (- e0) < pow2 p.
Proof.
  destruct x as [n d]. cbn [Qnum Qden]. unfold Qlt in Hx. simpl in Hx.
  assert (Hn : (0 < n)%Z) by lia.
  destruct (log2_bounds n Hn) as [Hn1 Hn2].
  destruct (log2_bounds (Zpos d) eq_refl) as [Hd1 Hd2].
  set (ln := Z.log2 n) in *. set (ld := Z.log2 (Zpos d)) in *.
  assert (Hd0 : 0 < inject_Z (Zpos d)) by (unfold Qlt; simpl; lia).
  set (A := inject_Z n * pow2 (- ln)).
  set (B := pow2 ld * / inject_Z (Zpos d)).
  assert (HA1 : 1 <= A).
  { unfold A. apply Qle_trans with (pow2 ln * pow2 (- ln)).
    - rewrite Qmult_comm, pow2_cancel. apply Qle_refl.
    - apply Qmult_le_compat_r; [exact Hn1 | apply Qlt_le_weak, pow2_pos]. }
  assert (HA2 : A < 2).
  { unfold A. apply (Qmult_lt_r _ _ (pow2 ln)); [apply pow2_pos|].
    setoid_replace (inject_Z n * pow2 (- ln) * pow2 ln) with (inject_Z n)
      by (rewrite <- Qmult_assoc, pow2_cancel; ring).
    rewrite <- pow2_succ. exact Hn2. }
  assert (HB1 : B <= 1).
  { unfold B. apply Qle_shift_div_r; [exact Hd0|]. lra. }
  assert (HB2 : 1 # 2 < B).
  { unfold B. apply Qlt_shift_div_l; [exact Hd0|].
    rewrite pow2_succ in Hd2. lra. }
  assert (HB0 : 0 < B) by lra.
  assert (Hs : (n # d) * pow2 (- (ln - ld - (p - 1))) == A * B * pow2 (p - 1)).
  { rewrite Qmake_Qdiv. unfold A, B.
    replace (- (ln - ld - (p - 1)))%Z with (- ln + (ld + (p - 1)))%Z by lia.
    rewrite !pow2_add. field. intro E. rewrite E in Hd0. discriminate. }
  rewrite Hs. pose proof (pow2_pos (p - 1)) as Hp.
  assert (Hpp : pow2 p == 2 * pow2 (p - 1)).
  { rewrite <- pow2_succ. replace (p - 1 + 1)%Z with p by lia. reflexivity. }
  rewrite Hpp. split.
  - assert (1 # 2 < A * B) by nra. nra.
  - assert (A * B < 2) by nra. nra.
Qed.

Lemma fexp_spec p x (Hx : 0 < x) :
  pow2 (p - 1) <= x * pow2 (- fexp p x) /\ x * pow2 (- fexp p x) < pow2 p.
Proof.
  pose proof (fexp_guess p x Hx) as G. cbv zeta in G.
  unfold fexp. set (e0 := (Z.log2 (Qnum x) - Z.log2 (Zpos (Qden x)) - (p - 1))%Z) in *.
  assert (Hpp : pow2 p == 2 * pow2 (p - 1)).
  { rewrite <- pow2_succ. replace (p - 1 + 1)%Z with p by lia. reflexivity. }
  destruct (Qltb (x * pow2 (- e0)) (pow2 (p - 1))) eqn:E.
  - apply Qltb_iff in E.
    replace (- (e0 - 1))%Z with (- e0 + 1)%Z by lia.
    rewrite pow2_succ. rewrite Hpp in *. split; lra.
  - apply Qltb_false in E. lra.
Qed.

Lemma exp_no_lt p x e1 e2 :
  0 < x -> pow2 (p - 1) <= x * pow2 (- e2) -> x * pow2 (- e1) < pow2 p ->
  ~ (e1 < e2)%Z.
Proof.
  intros Hx H2 H1 Hlt.
  assert (E : x * pow2 (- e1) == x * pow2 (- e2) * pow2 (e2 - e1)).
  { rewrite <- Qmult_assoc, <- pow2_add. replace (- e2 + (e2 - e1))%Z with (- e1)%Z by lia.
    reflexivity. }
  assert (Hk : pow2 1 <= pow2 (e2 - e1)) by (apply pow2_le; lia).
  change (pow2 1) with 2 in Hk.
  assert (Hpp : pow2 p == 2 * pow2 (p - 1)).
  { rewrite <- pow2_succ. replace (p - 1 + 1)%Z with p by lia. reflexivity. }
  pose proof (pow2_pos (p - 1)).
  set (a := x * pow2 (- e2)) in *. set (b := pow2 (e2 - e1)) in *.
  assert (pow2 (p - 1) * 2 <= a * b) by nra.
  lra.
Qed.

Lemma fexp_unique p x e :
  0 < x -> pow2 (p - 1) <= x * pow2 (- e) -> x * pow2 (- e) < pow2 p ->
  fexp p x = e.
Proof.
  intros Hx H1 H2. destruct (fexp_spec p x Hx) as [G1 G2].
  pose proof (exp_no_lt p x e (fexp p x) Hx G1 H2).
  pose proof (exp_no_lt p x (fexp p x) e Hx H1 G2). lia.
Qed.

Lemma fexp_mono p x y : 0 < x -> x <= y -> (fexp p x <= fexp p y)%Z.
Proof.
  intros Hx Hxy. assert (Hy : 0 < y) by lra.
  destruct (fexp_spec p x Hx) as [G1 G2]. destruct (fexp_spec p y Hy) as [K1 K2].
  assert (pow2 (p - 1) <= y * pow2 (- fexp p x)).
  { apply Qle_trans with (x * pow2 (- fexp p x)); [exact G1|].
    apply Qmult_le_compat_r; [exact Hxy | apply Qlt_le_weak, pow2_pos]. }
  pose proof (exp_no_lt p y (fexp p y) (fexp p x) Hy H K2). lia.
Qed.

Lemma fexp_proper p x y : 0 < x -> x == y -> fexp p x = fexp p y.
Proof.
  intros Hx E. assert (Hy : 0 < y) by (rewrite <- E; exact Hx).
  destruct (fexp_spec p x Hx) as [G1 G2].
  apply eq_sym, fexp_unique; [exact Hy | rewrite <- E; exact G1 | rewrite <- E; exact G2].
Qed.

Lemma pow2_mul_Z p : (0 <= p)%Z -> inject_Z (2 ^ p) == pow2 p.
Proof. intro H. rewrite pow2_Z by exact H. reflexivity. Qed.

Lemma rne_mant p x :
  (1 <= p)%Z -> 0 < x ->
  (2 ^ (p - 1) <= rne (x * pow2 (- fexp p x)) <= 2 ^ p)%Z.
Proof.
  intros Hp Hx. destruct (fexp_spec p x Hx) as [G1 G2].
  rewrite <- (pow2_mul_Z (p - 1)) in G1 by lia.
  rewrite <- (pow2_mul_Z p) in G2 by lia. split.
  - rewrite <- (rne_Z (2 ^ (p - 1))). apply rne_mono. exact G1.
  - rewrite <- (rne_Z (2 ^ p)). apply rne_mono. apply Qlt_le_weak. exact G2.
Qed.

Lemma round_pos_pos p x : (1 <= p)%Z -> 0 < x -> 0 < round_pos p x.
Proof.
  intros Hp Hx. unfold round_pos. pose proof (rne_mant p x Hp Hx) as [M _].
  pose proof (Z.pow_pos_nonneg 2 (p - 1)).
  apply Qmult_lt_0_compat; [|apply pow2_pos].
  unfold Qlt. simpl. lia.
Qed.

Lemma round_pos_mono p x y :
  (1 <= p)%Z -> 0 < x -> x <= y -> round_pos p x <= round_pos p y.
Proof.
  intros Hp Hx Hxy. assert (Hy : 0 < y) by lra.
  pose proof (fexp_mono p x y Hx Hxy) as He.
  unfold round_pos.
  destruct (Z.eq_dec (fexp p x) (fexp p y)) as [E|E].
  - rewrite E. apply Qmult_le_compat_r; [|apply Qlt_le_weak, pow2_pos].
    rewrite <- Zle_Qle. apply rne_mono.
    apply Qmult_le_compat_r; [exact Hxy | apply Qlt_le_weak, pow2_pos].
  - set (ex := fexp p x) in *. set (ey := fexp p y) in *.
    pose proof (rne_mant p x Hp Hx) as [_ Mx]. fold ex in Mx.
    pose proof (rne_mant p y Hp Hy) as [My _]. fold ey in My.
    apply Qle_trans with (pow2 p * pow2 ex).
    + apply Qmult_le_compat_r; [|apply Qlt_le_weak, pow2_pos].
      rewrite <- (pow2_mul_Z p) by lia. rewrite <- Zle_Qle. exact Mx.
    + apply Qle_trans with (pow2 (p - 1) * pow2 ey).
      * rewrite <- !pow2_add. apply pow2_le. lia.
      * apply Qmult_le_compat_r; [|apply Qlt_le_weak, pow2_pos].
        rewrite <- (pow2_mul_Z (p - 1)) by lia. rewrite <- Zle_Qle. exact My.
Qed.

Lemma round_pos_err p x :
  0 < x ->
  round_pos p x - x <= x * pow2 (- p) /\ x - round_pos p x <= x * pow2 (- p).
Proof.
  intro Hx. unfold round_pos. set (e := fexp p x).
  destruct (fexp_spec p x Hx) as [G1 _]. fold e in G1.
  set (s := x * pow2 (- e)) in *.
  destruct (rne_bounds s) as [B1 B2].
  set (m := inject_Z (rne s)) in *.
  assert (Xs : x == s * pow2 e) by (unfold s; rewrite <- Qmult_assoc, pow2_cancel; ring).
  assert (HT : pow2 (p - 1) * pow2 (- p) == 1 # 2).
  { rewrite <- pow2_add. replace (p - 1 + - p)%Z with (-1)%Z by lia. reflexivity. }
  pose proof (pow2_pos e) as HE. pose proof (pow2_pos (- p)) as HTp.
  set (E := pow2 e) in *. set (T := pow2 (- p)) in *. set (P := pow2 (p - 1)) in *.
  rewrite Xs.
  assert (P * T * E <= s * T * E).
  { apply Qmult_le_compat_r; [|lra]. apply Qmult_le_compat_r; lra. }
  assert (m * E - s * E <= (1 # 2) * E) by nra.
  assert (s * E - m * E <= (1 # 2) * E) by nra.
  rewrite HT in H. split; nra.
Qed.

Lemma round_pos_proper p x y : 0 < x -> x == y -> round_pos p x == round_pos p y.
Proof.
  intros Hx E. unfold round_pos. rewrite <- (fexp_proper p x y Hx E).
  rewrite (rne_proper (x * pow2 (- fexp p x)) (y * pow2 (- fexp p x)))
    by (generalize (pow2 (- fexp p x)); intro t; rewrite E; reflexivity).
  reflexivity.
Qed.

Lemma round_pos_idem p x :
  (1 <= p)%Z -> 0 < x -> round_pos p (round_pos p x) == round_pos p x.
Proof.
  intros Hp Hx. pose proof (rne_mant p x Hp Hx) as [M1 M2].
  unfold round_pos at 2 3. set (e := fexp p x) in *.
  set (m := rne (x * pow2 (- e))) in *.
  assert (Hy : forall e', inject_Z m * pow2 e * pow2 (- e') ==
                          inject_Z m * pow2 (e - e')).
  { intro e'. rewrite <- Qmult_assoc, <- pow2_add. reflexivity. }
  destruct (Z.eq_dec m (2 ^ p)) as [Em|Em].
  - assert (F : fexp p (inject_Z m * pow2 e) = (e + 1)%Z).
    { apply fexp_unique.
      - apply Qmult_lt_0_compat; [unfold Qlt; simpl; lia | apply pow2_pos].
      - rewrite Hy, Em, pow2_mul_Z, <- pow2_add by lia.
        apply pow2_le. lia.
      - rewrite Hy, Em, pow2_mul_Z, <- pow2_add by lia.
        apply pow2_lt. lia. }
    unfold round_pos. rewrite F, (rne_proper _ _ (Hy (e + 1)%Z)).
    assert (R : rne (inject_Z m * pow2 (e - (e + 1))) = (2 ^ (p - 1))%Z).
    { rewrite <- (rne_Z (2 ^ (p - 1))). apply rne_proper.
      rewrite Em, !pow2_mul_Z, <- pow2_add by lia.
      replace (p + (e - (e + 1)))%Z with (p - 1)%Z by lia. reflexivity. }
    rewrite R, Em, !pow2_mul_Z, <- !pow2_add by lia.
    replace (p - 1 + (e + 1))%Z with (p + e)%Z by lia. reflexivity.
  - assert (F : fexp p (inject_Z m * pow2 e) = e).
    { apply fexp_unique.
      - apply Qmult_lt_0_compat; [|apply pow2_pos].
        pose proof (Z.pow_pos_nonneg 2 (p - 1)). unfold Qlt; simpl; lia.
      - rewrite Hy. replace (e - e)%Z with 0%Z by lia.
        rewrite <- (pow2_mul_Z (p - 1)) by lia. change (pow2 0) with 1.
        rewrite Qmult_1_r. rewrite <- Zle_Qle. exact M1.
      - rewrite Hy. replace (e - e)%Z with 0%Z by lia.
        rewrite <- (pow2_mul_Z p) by lia. change (pow2 0) with 1.
        rewrite Qmult_1_r. rewrite <- Zlt_Qlt. lia. }
    unfold round_pos. rewrite F, (rne_proper _ _ (Hy e)). replace (e - e)%Z with 0%Z by lia.
    change (pow2 0) with 1. rewrite (rne_proper _ (inject_Z m) (Qmult_1_r _)), rne_Z. reflexivity.
Qed.

Lemma round_prec_proper p x y : x == y -> round_prec p x = round_prec p y.
Proof. intro E. unfold round_prec. rewrite (Qred_complete x y E). reflexivity. Qed.

Lemma round_prec_pos_eq p x : 0 < x -> round_prec p x == round_pos p x.
Proof.
  intro Hx. unfold round_prec.
  assert (Hr : 0 < Qred x) by (rewrite Qred_correct; exact Hx).
  apply Qltb_iff in Hr. rewrite Hr.
  apply round_pos_proper; [rewrite Qred_correct; exact Hx | apply Qred_correct].
Qed.

Lemma round_prec_zero p : round_prec p 0 = 0.
Proof. reflexivity. Qed.

Lemma round_prec_pos p x : (1 <= p)%Z -> 0 < x -> 0 < round_prec p x.
Proof.
  intros Hp Hx. rewrite round_prec_pos_eq by exact Hx. apply round_pos_pos; assumption.
Qed.

Lemma round_prec_nonneg p x : (1 <= p)%Z -> 0 <= x -> 0 <= round_prec p x.
Proof.
  intros Hp Hx. destruct (Qle_lt_or_eq _ _ Hx) as [H|H].
  - apply Qlt_le_weak, round_prec_pos; assumption.
  - rewrite (round_prec_proper p x 0) by (symmetry; exact H). apply Qle_refl.
Qed.

Lemma round_prec_mono p x y :
  (1 <= p)%Z -> 0 <= x -> x <= y -> round_prec p x <= round_prec p y.
Proof.
  intros Hp Hx Hxy. destruct (Qle_lt_or_eq _ _ Hx) as [H|H].
  - rewrite !round_prec_pos_eq by lra. apply round_pos_mono; assumption.
  - rewrite (round_prec_proper p x 0) by (symmetry; exact H).
    rewrite round_prec_zero. apply round_prec_nonneg; [exact Hp | lra].
Qed.

Lemma round_prec_idem p x :
  (1 <= p)%Z -> 0 < x -> round_prec p (round_prec p x) == round_prec p x.
Proof.
  intros Hp Hx. pose proof (round_prec_pos p x Hp Hx) as Hy.
  rewrite (round_prec_pos_eq p (round_prec p x)) by exact Hy.
  rewrite (round_pos_proper p _ _ Hy (round_prec_pos_eq p x Hx)).
  rewrite round_pos_idem by assumption.
  symmetry. apply round_prec_pos_eq. exact Hx.
Qed.

Lemma round_prec_err p x :
  0 < x -> round_prec p x <= x + x * pow2 (- p).
Proof.
  intro Hx. rewrite round_prec_pos_eq by exact Hx.
  destruct (round_pos_err p x Hx). lra.
Qed.

(** A value the format represents exactly is a lower (upper) bound of the
    rounding of anything above (below) it. *)
Lemma round_prec_ge_repr p v x :
  (1 <= p)%Z -> 0 <= v -> round_prec p v == v -> v <= x -> v <= round_prec p x.
Proof.
  intros Hp Hv Ev Hvx. rewrite <- Ev. apply round_prec_mono; assumption.
Qed.

Lemma round_prec_le_repr p v x :
  (1 <= p)%Z -> 0 <= x -> round_prec p v == v -> x <= v -> round_prec p x <= v.
Proof.
  intros Hp Hx Ev Hxv. rewrite <- Ev. apply round_prec_mono; assumption.
Qed.

Lemma py_int_nonneg x : 0 <= x -> py_int x = Qfloor x.
Proof.
  intro H. unfold py_int. apply Qle_bool_iff in H. rewrite H. reflexivity.
Qed.

Lemma py_int_le_Z x (n : Z) : 0 <= x -> x < inject_Z (n + 1) -> (py_int x <= n)%Z.
Proof.
  intros H1 H2. rewrite py_int_nonneg by exact H1.
  assert (Qfloor x < n + 1)%Z; [|lia].
  rewrite Zlt_Qlt. apply Qle_lt_trans with x; [apply Qfloor_le | exact H2].
Qed.

Lemma py_int_ge_Z x (n : Z) : inject_Z n <= x -> (0 <= n)%Z -> (n <= py_int x)%Z.
Proof.
  intros H1 H2. rewrite py_int_nonneg.
  - rewrite <- (Qfloor_Z n). apply Qfloor_resp_le. exact H1.
  - apply Qle_trans with (inject_Z n); [|exact H1]. change 0 with (inject_Z 0). rewrite <- Zle_Qle. exact H2.
Qed.

(** ** binary64 facts used by the pad and crop plans *)

Lemma f64_pos x : 0 < x -> 0 < f64 x.
Proof. apply round_prec_pos. lia. Qed.

Lemma f64_nonneg x : 0 <= x -> 0 <= f64 x.
Proof. apply round_prec_nonneg. lia. Qed.

Lemma f64_mono x y : 0 <= x -> x <= y -> f64 x <= f64 y.
Proof. apply round_prec_mono. lia. Qed.

Lemma f64_idem x : 0 < x -> f64 (f64 x) == f64 x.
Proof. apply round_prec_idem. lia. Qed.

Lemma f64_err x : 0 < x -> f64 x <= x + x * (1 # 9007199254740992).
Proof. intro Hx. exact (round_prec_err 53 x Hx). Qed.

Lemma inject_Z_pos (n : Z) : (0 < n)%Z -> 0 < inject_Z n.
Proof. intro H. unfold Qlt. simpl. lia. Qed.

Lemma Zeqb_false_pos (n : Z) : (0 < n)%Z -> (n =? 0)%Z = false.
Proof. intro H. apply Z.eqb_neq. lia. Qed.

Lemma aspect_pos w h : (0 < w)%Z -> (0 < h)%Z ->
  0 < fdiv (inject_Z w) (inject_Z h).
Proof.
  intros Hw Hh. apply f64_pos. apply Qlt_shift_div_l; [apply inject_Z_pos; exact Hh|].
  rewrite Qmult_0_l. apply inject_Z_pos. exact Hw.
Qed.

(** A binary64 quotient strictly above the rounding of [a/b] is strictly
    above [a/b] itself. *)
Lemma above_rounded_quotient (oar q : Q) :
  0 < q -> 0 < oar -> f64 oar == oar -> f64 q < oar -> q < oar.
Proof.
  intros Hq Ho Eo H. apply Qnot_le_lt. intro Hle.
  pose proof (f64_mono oar q (Qlt_le_weak _ _ Ho) Hle). lra.
Qed.

Lemma pad_plan_fits (tw th w h : Z) :
  (0 < tw <= 1048576)%Z -> (0 < th)%Z -> (0 < w)%Z -> (0 < h)%Z ->
  f64 (inject_Z th) == inject_Z th ->
  let '(sw, sh, _, _) := pad_plan w h tw th in (sw <= tw /\ sh <= th)%Z.
Proof.
  intros Htw Hth Hw Hh Eth. unfold pad_plan.
  rewrite (Zeqb_false_pos h Hh), (Zeqb_false_pos th Hth). cbn [negb].
  pose proof (aspect_pos w h Hw Hh) as Ho.
  set (oar := fdiv (inject_Z w) (inject_Z h)) in *.
  assert (Eo : f64 oar == oar).
  { unfold oar, fdiv. apply f64_idem. apply Qlt_shift_div_l; [apply inject_Z_pos; lia|].
    rewrite Qmult_0_l. apply inject_Z_pos. exact Hw. }
  pose proof (inject_Z_pos tw ltac:(lia)) as Qtw.
  pose proof (inject_Z_pos th Hth) as Qth.
  assert (Hq : 0 < inject_Z tw / inject_Z th)
    by (apply Qlt_shift_div_l; [exact Qth | rewrite Qmult_0_l; exact Qtw]).
  destruct (Qltb (fdiv (inject_Z tw) (inject_Z th)) oar) eqn:E.
  - apply Qltb_iff in E. split; [lia|].
    assert (Hlt : inject_Z tw / inject_Z th < oar)
      by (apply above_rounded_quotient; assumption).
    apply py_int_le_Z.
    + apply f64_nonneg. apply Qle_shift_div_l; [exact Ho | rewrite Qmult_0_l; lra].
    + apply Qle_lt_trans with (inject_Z th).
      * apply round_prec_le_repr; [lia | | exact Eth |].
        -- apply Qle_shift_div_l; [exact Ho | rewrite Qmult_0_l; lra].
        -- apply Qle_shift_div_r; [exact Ho|].
           assert (H2 : inject_Z tw < oar * inject_Z th).
           { setoid_replace (inject_Z tw) with (inject_Z tw / inject_Z th * inject_Z th)
               by (field; intro Z0; rewrite Z0 in Qth; discriminate).
             apply Qmult_lt_compat_r; assumption. }
           lra.
      * rewrite <- Zlt_Qlt. lia.
  - apply Qltb_false in E. split; [|lia].
    apply py_int_le_Z.
    + apply f64_nonneg. apply Qmult_le_0_compat; lra.
    + pose proof (f64_err _ Hq) as Et. fold (fdiv (inject_Z tw) (inject_Z th)) in Et.
      assert (Xpos : 0 < inject_Z th * oar) by (apply Qmult_lt_0_compat; assumption).
      pose proof (f64_err _ Xpos) as Ex.
      assert (Hx : inject_Z th * oar <= inject_Z tw + inject_Z tw * (1 # 9007199254740992)).
      { apply Qle_trans with (inject_Z th * fdiv (inject_Z tw) (inject_Z th)).
        - rewrite !(Qmult_comm (inject_Z th)). apply Qmult_le_compat_r; lra.
        - apply Qle_trans with
            (inject_Z th * (inject_Z tw / inject_Z th +
                            inject_Z tw / inject_Z th * (1 # 9007199254740992))).
          + rewrite !(Qmult_comm (inject_Z th)). apply Qmult_le_compat_r; lra.
          + apply Qle_lteq. right. field. intro Z0. rewrite Z0 in Qth. discriminate. }
      assert (Btw : inject_Z tw <= inject_Z 1048576) by (rewrite <- Zle_Qle; lia).
      change (inject_Z 1048576) with 1048576 in Btw.
      unfold fmul. rewrite inject_Z_plus. change (inject_Z 1) with 1. lra.
Qed.

(** ** The preset table *)

Lemma target_dims_table resolution_preset w h :
  resolution_preset = "480p"%string \/ resolution_preset = "720p"%string ->
  In (target_dims resolution_preset w h)
     [(512, 512); (480, 852); (852, 480); (768, 768); (720, 1280); (1280, 720)]%Z.
Proof.
  intros [E|E]; subst; unfold target_dims, select_target; cbn [String.eqb Ascii.eqb Bool.eqb];
    destruct (is_square_ish_of _); destruct (w <? h)%Z; simpl; tauto.
Qed.

Lemma pad_plan_formula (tw th w h : Z) :
  (0 < th)%Z -> (0 < h)%Z ->
  let '(sw, sh, _, _) := pad_plan w h tw th in
  if Qltb (fdiv (inject_Z tw) (inject_Z th)) (fdiv (inject_Z w) (inject_Z h))
  then sw = tw /\ sh = py_int (fdiv (inject_Z tw) (fdiv (inject_Z w) (inject_Z h)))
  else sh = th /\ sw = py_int (fmul (inject_Z th) (fdiv (inject_Z w) (inject_Z h))).
Proof.
  intros Hth Hh. unfold pad_plan.
  rewrite (Zeqb_false_pos h Hh), (Zeqb_false_pos th Hth). cbn [negb].
  destruct (Qltb _ _); split; reflexivity.
Qed.

Lemma aspect_ratio_pos w h :
  (0 < w)%Z -> (0 < h)%Z -> aspect_ratio w h = fdiv (inject_Z w) (inject_Z h).
Proof.
  intros Hw Hh. unfold aspect_ratio.
  rewrite (Zeqb_false_pos h Hh), (Zeqb_false_pos w Hw). reflexivity.
Qed.

Lemma Qabs_split (x : Q) : (0 <= x /\ Qabs x == x) \/ (x <= 0 /\ Qabs x == - x).
Proof.
  destruct (Qlt_le_dec x 0) as [H|H].
  - right. split; [lra | apply Qabs_neg; lra].
  - left. split; [lra | apply Qabs_pos; lra].
Qed.

(** ** The batch loop and the Pillow operations *)

Lemma map_result_Forall {A B} (f : A -> result B) (P : B -> Prop) (l : list A) bs :
  (forall a b, In a l -> f a = Ok b -> P b) -> map_result f l = Ok bs -> Forall P bs.
Proof.
  revert bs. induction l as [|a l IH]; intros bs Hf Hm; simpl in Hm.
  - inversion Hm. constructor.
  - destruct (f a) as [b|e] eqn:Ea; simpl in Hm; [|discriminate].
    destruct (map_result f l) as [bs'|e] eqn:El; simpl in Hm; [|discriminate].
    inversion Hm. subst. constructor.
    + apply (Hf a); [left; reflexivity | exact Ea].
    + apply IH; [intros a' b' Hin; apply Hf; right; exact Hin | reflexivity].
Qed.

Lemma pil_resize_ok resample im w h r :
  pil_resize resample im w h = Ok r ->
  im_mode r = im_mode im /\ im_width r = w /\ im_height r = h.
Proof.
  unfold pil_resize. intro H.
  destruct ((w =? im_width im) && (h =? im_height im))%Z eqn:E1.
  - inversion H. subst. apply andb_true_iff in E1 as [E1 E2].
    apply Z.eqb_eq in E1, E2. auto.
  - destruct ((w <? 1) || (h <? 1))%Z; inversion H. simpl. auto.
Qed.

Lemma fromarray_ok t im :
  fromarray t = Ok im ->
  bands (im_mode im) = t_channels t /\ im_width im = t_width t /\ im_height im = t_height t.
Proof.
  unfold fromarray, mode_of_channels. intro H.
  destruct (t_channels t =? 2)%Z eqn:C2; [|destruct (t_channels t =? 3)%Z eqn:C3;
    [|destruct (t_channels t =? 4)%Z eqn:C4]]; simpl in H; try discriminate;
    inversion H; subst; simpl; rewrite ?Z.eqb_eq in *; auto.
Qed.

Lemma pad_plan_offsets w h tw th :
  let '(sw, sh, px, py) := pad_plan w h tw th in
  px = ((tw - sw) / 2)%Z /\ py = ((th - sh) / 2)%Z.
Proof.
  unfold pad_plan. destruct (Qltb _ _); split; reflexivity.
Qed.

Lemma half_split (d : Z) : (d / 2 <= d - d / 2 <= d / 2 + 1)%Z.
Proof.
  pose proof (Z.div_mod d 2 ltac:(lia)). pose proof (Z.mod_pos_bound d 2 ltac:(lia)). lia.
Qed.

Lemma f32_zero_byte : f32 (inject_Z 0 / 255) == 0.
Proof. vm_compute. reflexivity. Qed.

Lemma nth_zeros (n : nat) : nth n [0; 0; 0]%Z 0%Z = 0%Z.
Proof. destruct n as [|[|[|[|n]]]]; reflexivity. Qed.

Lemma process_image_pad_border resample tw th (t : tensor3) o :
  process_image resample tw th true t = Ok o ->
  let '(sw, sh, px, py) := pad_plan (t_width t) (t_height t) tw th in
  forall x y c,
    ~ ((px <= x < px + sw)%Z /\ (py <= y < py + sh)%Z) -> t_at o y x c == 0.
Proof.
  unfold process_image. intro H.
  destruct (fromarray t) as [im|e] eqn:F; simpl in H; [|discriminate].
  destruct (fromarray_ok t im F) as [_ [Wi Hi]].
  rewrite Wi, Hi in H.
  destruct (pad_plan (t_width t) (t_height t) tw th) as [[[sw sh] px] py].
  destruct (pil_resize resample im sw sh) as [r|e] eqn:R; simpl in H; [|discriminate].
  destruct (pil_resize_ok resample im sw sh r R) as [_ [Wr Hr]].
  unfold pil_new_black in H.
  destruct ((tw <? 0) || (th <? 0))%Z; simpl in H; [discriminate|].
  inversion H. subst o. clear H.
  intros x y c Hout. simpl. rewrite Wr, Hr.
  destruct ((px <=? x) && (x <? px + sw) && (py <=? y) && (y <? py + sh))%Z eqn:In.
  - exfalso. apply Hout. rewrite !andb_true_iff, !Z.leb_le, !Z.ltb_lt in In. lia.
  - rewrite nth_zeros. exact f32_zero_byte.
Qed.

Lemma process_image_channels resample tw th pad (t : tensor3) o :
  process_image resample tw th pad t = Ok o ->
  t_channels o = if pad then 3%Z else t_channels t.
Proof.
  unfold process_image. intro H.
  destruct (fromarray t) as [im|e] eqn:F; simpl in H; [|discriminate].
  destruct (fromarray_ok t im F) as [Bi _].
  destruct pad.
  - destruct (pad_plan (im_width im) (im_height im) tw th) as [[[sw sh] px] py].
    destruct (pil_resize resample im sw sh) as [r|e]; simpl in H; [|discriminate].
    unfold pil_new_black in H.
    destruct ((tw <? 0) || (th <? 0))%Z; simpl in H; [discriminate|].
    inversion H. reflexivity.
  - destruct (crop_plan (im_width im) (im_height im) tw th) as [[[nw nh] box]|e];
      simpl in H; [|discriminate].
    destruct (pil_resize resample im nw nh) as [r|e] eqn:R; simpl in H; [|discriminate].
    destruct (pil_resize_ok resample im nw nh r R) as [Mr _].
    inversion H. subst o. unfold pil_crop. destruct box as [[[l tp] rg] bt].
    simpl. rewrite Mr. exact Bi.
Qed.

Lemma f32_255 : f32 255 == 255.
Proof. vm_compute. reflexivity. Qed.

Lemma round_prec_neg p x : x < 0 -> round_prec p x == - round_pos p (- x).
Proof.
  intro Hx. unfold round_prec.
  assert (R : Qred x == x) by apply Qred_correct.
  replace (Qltb 0 (Qred x)) with false by (symmetry; apply Qltb_false; lra).
  replace (Qltb (Qred x) 0) with true by (symmetry; apply Qltb_iff; lra).
  rewrite (round_pos_proper p (- Qred x) (- x)) by lra. reflexivity.
Qed.

Lemma f32_nonpos x : x <= 0 -> f32 x <= 0.
Proof.
  intro H. unfold f32. destruct (Qle_lt_or_eq _ _ H) as [Hl|He].
  - rewrite (round_prec_neg 24 x Hl).
    assert (P : 0 <= round_prec 24 (- x)) by (apply round_prec_nonneg; [lia | lra]).
    rewrite (round_prec_pos_eq 24 (- x)) in P by lra. lra.
  - rewrite (round_prec_proper 24 x 0 He). apply Qle_bool_iff. vm_compute. reflexivity.
Qed.

Lemma to_byte_range x : (0 <= to_byte x <= 255)%Z.
Proof.
  unfold to_byte, np_clip.
  destruct (Qltb (f32 (255 * x)) 0) eqn:A.
  { replace (py_int 0) with 0%Z by reflexivity. lia. }
  destruct (Qltb 255 (f32 (255 * x))) eqn:B.
  { replace (py_int 255) with 255%Z by reflexivity. lia. }
  apply Qltb_false in A, B. rewrite py_int_nonneg by exact A. split.
  - rewrite <- (Qfloor_Z 0). apply Qfloor_resp_le. exact A.
  - rewrite <- (Qfloor_Z 255). apply Qfloor_resp_le. exact B.
Qed.

(** * Claims *)

(** C5: in pad mode, for positive image dimensions and a supported preset,
    the scaled size fits within the target box on both axes; when the
    image's aspect ratio exceeds the target's, the width is the target
    width and the height is [int(target_width / original_aspect_ratio)],
    otherwise the height is the target height and the width is
    [int(target_height * original_aspect_ratio)] (binary64 arithmetic). *)
Theorem pad_scaled_fits_target (resolution_preset : string) (w h : Z) :
  (0 < w)%Z -> (0 < h)%Z ->
  resolution_preset = "480p"%string \/ resolution_preset = "720p"%string ->
  let '(tw, th) := target_dims resolution_preset w h in
  let '(sw, sh, _, _) := pad_plan w h tw th in
  (sw <= tw /\ sh <= th)%Z /\
  (if Qltb (fdiv (inject_Z tw) (inject_Z th)) (fdiv (inject_Z w) (inject_Z h))
   then sw = tw /\ sh = py_int (fdiv (inject_Z tw) (fdiv (inject_Z w) (inject_Z h)))
   else sh = th /\ sw = py_int (fmul (inject_Z th) (fdiv (inject_Z w) (inject_Z h)))).
Proof.
  intros Hw Hh Hp. pose proof (target_dims_table resolution_preset w h Hp) as T.
  destruct (target_dims resolution_preset w h) as [tw th].
  assert (Hfit : (0 < tw <= 1048576)%Z /\ (0 < th)%Z /\
                 f64 (inject_Z th) == inject_Z th).
  { simpl in T. repeat destruct T as [T|T]; try contradiction;
      inversion T; subst; repeat split; try lia; vm_compute; reflexivity. }
  destruct Hfit as [Htw [Hth Eth]].
  pose proof (pad_plan_fits tw th w h Htw Hth Hw Hh Eth) as F.
  pose proof (pad_plan_formula tw th w h Hth Hh) as G.
  destruct (pad_plan w h tw th) as [[[sw sh] px] py].
  split; assumption.
Qed.

Lemma pad_scaled_fits_target_witness :
  (0 < 1000)%Z /\ (0 < 500)%Z /\
  ("480p" = "480p" \/ "480p" = "720p")%string /\
  let '(tw, th) := target_dims "480p" 1000 500 in
  let '(sw, sh, _, _) := pad_plan 1000 500 tw th in
  (sw <= tw /\ sh <= th)%Z /\
  (if Qltb (fdiv (inject_Z tw) (inject_Z th)) (fdiv (inject_Z 1000) (inject_Z 500))
   then sw = tw /\ sh = py_int (fdiv (inject_Z tw) (fdiv (inject_Z 1000) (inject_Z 500)))
   else sh = th /\ sw = py_int (fmul (inject_Z th) (fdiv (inject_Z 1000) (inject_Z 500)))).
Proof.
  split; [lia | split; [lia | split; [left; reflexivity |]]].
  apply (pad_scaled_fits_target "480p" 1000 500); [lia | lia | left; reflexivity].
Defined.

(** C4: [is_square_ish] is [diff_to_square < diff_to_wide] (strict), with
    [diff_to_square = |aspect - 1.0|] and
    [diff_to_wide = min(|aspect - 16/9|, |aspect - 9/16|)] in binary64.
    Aspect 1.0 (any [n x n] image) is square-ish; aspect 16/9 (any
    [16k x 9k] image) is not; an aspect exactly equidistant from 1 and the
    nearer of 16/9, 9/16 is not square-ish, whether the tie is between the
    computed differences or between the exact ones (the aspects 25/32 and
    25/18, as the code computes them). *)
Theorem square_ish_classification :
  (forall a : Q, is_square_ish_of a =
     Qltb (Qabs (fsub a 1))
          (py_min (Qabs (fsub a (fdiv 16 9))) (Qabs (fsub a (fdiv 9 16))))) /\
  is_square_ish_of 1 = true /\
  (forall n : Z, (0 < n)%Z -> is_square_ish_of (aspect_ratio n n) = true) /\
  is_square_ish_of (fdiv 16 9) = false /\
  (forall k : Z, (0 < k)%Z -> is_square_ish_of (aspect_ratio (16 * k) (9 * k)) = false) /\
  (forall a : Q, diff_to_square a == diff_to_wide a -> is_square_ish_of a = false) /\
  (forall a : Q,
     (Qabs (a - 1) == Qabs (a - (16 # 9)) /\ Qabs (a - 1) <= Qabs (a - (9 # 16))) \/
     (Qabs (a - 1) == Qabs (a - (9 # 16)) /\ Qabs (a - 1) <= Qabs (a - (16 # 9))) ->
     is_square_ish_of (f64 a) = false).
Proof.
  split; [intro a; reflexivity|].
  split; [vm_compute; reflexivity|].
  split.
  { intros n Hn. rewrite aspect_ratio_pos by lia. unfold fdiv, f64.
    rewrite (round_prec_proper _ _ 1) by (field; intro Z0;
      apply (Qlt_irrefl 0); rewrite <- Z0 at 2; apply inject_Z_pos; exact Hn).
    vm_compute. reflexivity. }
  split; [vm_compute; reflexivity|].
  split.
  { intros k Hk. rewrite aspect_ratio_pos by lia. unfold fdiv, f64.
    rewrite (round_prec_proper _ _ (16 / 9)).
    - vm_compute. reflexivity.
    - rewrite !inject_Z_mult. field. intro Z0.
      apply (Qlt_irrefl 0). rewrite <- Z0 at 2. apply inject_Z_pos. exact Hk. }
  split.
  { intros a E. unfold is_square_ish_of. apply Qltb_false. rewrite E. apply Qle_refl. }
  intros a Ha.
  assert (Ea : a == 25 # 18 \/ a == 25 # 32).
  { destruct (Qabs_split (a - 1)) as [[A1 A2]|[A1 A2]];
    destruct (Qabs_split (a - (16 # 9))) as [[B1 B2]|[B1 B2]];
    destruct (Qabs_split (a - (9 # 16))) as [[C1 C2]|[C1 C2]];
    rewrite A2, B2, C2 in Ha; lra. }
  unfold f64. destruct Ea as [Ea|Ea]; rewrite (round_prec_proper _ _ _ Ea);
    vm_compute; reflexivity.
Qed.

(** C8: for a preset other than "480p" and "720p" the target-selection
    step returns the initial [0 x 0]; it is a total function, no error. *)
Theorem unsupported_preset_target_unset (resolution_preset : string)
    (is_square_ish : bool) (original_width original_height : Z) :
  resolution_preset <> "480p"%string -> resolution_preset <> "720p"%string ->
  select_target resolution_preset is_square_ish original_width original_height = (0, 0)%Z /\
  target_dims resolution_preset original_width original_height = (0, 0)%Z.
Proof.
  intros H1 H2. unfold target_dims, select_target.
  apply String.eqb_neq in H1, H2. rewrite H1, H2. split; reflexivity.
Qed.

Lemma unsupported_preset_target_unset_witness :
  "1080p"%string <> "480p"%string /\ "1080p"%string <> "720p"%string /\
  select_target "1080p" true 1920 1080 = (0, 0)%Z /\
  target_dims "1080p" 1920 1080 = (0, 0)%Z.
Proof.
  split; [discriminate | split; [discriminate |]].
  apply (unsupported_preset_target_unset "1080p" true 1920 1080); discriminate.
Defined.

(** C9: target selection is invariant under scaling both dimensions by a
    positive integer: same aspect ratio (as a binary64 value), same
    classification, same orientation test and same target dimensions. *)
Theorem target_selection_scale_invariant (resolution_preset : string) (w h k : Z) :
  (0 < w)%Z -> (0 < h)%Z -> (0 < k)%Z ->
  aspect_ratio (k * w) (k * h) = aspect_ratio w h /\
  is_square_ish_of (aspect_ratio (k * w) (k * h)) = is_square_ish_of (aspect_ratio w h) /\
  (k * w <? k * h)%Z = (w <? h)%Z /\
  target_dims resolution_preset (k * w) (k * h) = target_dims resolution_preset w h.
Proof.
  intros Hw Hh Hk.
  assert (Ea : aspect_ratio (k * w) (k * h) = aspect_ratio w h).
  { rewrite !aspect_ratio_pos by lia. unfold fdiv. apply round_prec_proper.
    rewrite !inject_Z_mult. field. split; intro Z0; apply (Qlt_irrefl 0);
      rewrite <- Z0 at 2; apply inject_Z_pos; assumption. }
  assert (Eo : (k * w <? k * h)%Z = (w <? h)%Z).
  { destruct (Z.ltb_spec (k * w) (k * h)); destruct (Z.ltb_spec w h); try reflexivity; nia. }
  split; [exact Ea|]. split; [rewrite Ea; reflexivity|]. split; [exact Eo|].
  unfold target_dims, select_target. rewrite Ea, Eo. reflexivity.
Qed.

Lemma target_selection_scale_invariant_witness :
  (0 < 400)%Z /\ (0 < 300)%Z /\ (0 < 3)%Z /\
  aspect_ratio (3 * 400) (3 * 300) = aspect_ratio 400 300 /\
  is_square_ish_of (aspect_ratio (3 * 400) (3 * 300)) = is_square_ish_of (aspect_ratio 400 300) /\
  (3 * 400 <? 3 * 300)%Z = (400 <? 300)%Z /\
  target_dims "720p" (3 * 400) (3 * 300) = target_dims "720p" 400 300.
Proof.
  split; [lia | split; [lia | split; [lia |]]].
  apply (target_selection_scale_invariant "720p" 400 300 3); lia.
Defined.

Lemma square_ish_classification_witness :
  ((0 < 7)%Z /\ is_square_ish_of (aspect_ratio 7 7) = true) /\
  ((0 < 120)%Z /\ is_square_ish_of (aspect_ratio (16 * 120) (9 * 120)) = false) /\
  (diff_to_square (f64 (25 # 32)) == diff_to_wide (f64 (25 # 32)) /\
   is_square_ish_of (f64 (25 # 32)) = false) /\
  ((Qabs ((25 # 18) - 1) == Qabs ((25 # 18) - (16 # 9)) /\
    Qabs ((25 # 18) - 1) <= Qabs ((25 # 18) - (9 # 16))) /\
   is_square_ish_of (f64 (25 # 18)) = false).
Proof.
  destruct square_ish_classification as [_ [_ [Hn [_ [Hk [Hd He]]]]]].
  assert (Q1 : Qabs ((25 # 18) - 1) == Qabs ((25 # 18) - (16 # 9))) by (vm_compute; reflexivity).
  assert (Q2 : Qabs ((25 # 18) - 1) <= Qabs ((25 # 18) - (9 # 16)))
    by (apply Qle_bool_iff; reflexivity).
  assert (Q3 : diff_to_square (f64 (25 # 32)) == diff_to_wide (f64 (25 # 32)))
    by (vm_compute; reflexivity).
  split; [split; [lia | apply Hn; lia]|].
  split; [split; [lia | apply Hk; lia]|].
  split; [split; [exact Q3 | apply Hd; exact Q3]|].
  split; [split; [exact Q1 | exact Q2] | apply He; left; split; [exact Q1 | exact Q2]].
Defined.

(** C7: in pad mode every output image is black (all channels zero)
    outside the pasted rectangle [paste_x, paste_x + scaled_width) x
    [paste_y, paste_y + scaled_height), with
    [paste_x = (target_width - scaled_width) // 2] and
    [paste_y = (target_height - scaled_height) // 2]; the right (bottom)
    border is the left (top) border or one pixel wider. *)
Theorem pad_border_black resample (image : batch) (resolution_preset : string) :
  match process resample image resolution_preset true with
  | Ok (outs, tw, th) =>
      let '(sw, sh, px, py) := pad_plan (b_width image) (b_height image) tw th in
      px = ((tw - sw) / 2)%Z /\ py = ((th - sh) / 2)%Z /\
      (px <= tw - (px + sw) <= px + 1)%Z /\ (py <= th - (py + sh) <= py + 1)%Z /\
      Forall (fun t => forall x y c,
         (0 <= x < tw)%Z -> (0 <= y < th)%Z -> (0 <= c < t_channels t)%Z ->
         ~ ((px <= x < px + sw)%Z /\ (py <= y < py + sh)%Z) -> t_at t y x c == 0) outs
  | Err _ => True
  end.
Proof.
  unfold process.
  destruct (target_dims resolution_preset (b_width image) (b_height image)) as [tw th].
  destruct (map_result _ (b_images image)) as [outs|e] eqn:M; simpl; [|exact I].
  assert (HF : Forall (fun o =>
      let '(sw, sh, px, py) := pad_plan (b_width image) (b_height image) tw th in
      forall x y c, ~ ((px <= x < px + sw)%Z /\ (py <= y < py + sh)%Z) ->
      t_at o y x c == 0) outs).
  { apply (map_result_Forall
      (fun img => process_image resample tw th true (batch_item image img)) _
      (b_images image)); [|exact M].
    intros a b _ Hb. exact (process_image_pad_border resample tw th _ b Hb). }
  destruct outs as [|o os]; [exact I|].
  pose proof (pad_plan_offsets (b_width image) (b_height image) tw th) as Off.
  destruct (pad_plan (b_width image) (b_height image) tw th) as [[[sw sh] px] py].
  destruct Off as [Ex Ey].
  split; [exact Ex|]. split; [exact Ey|].
  split; [subst px; pose proof (half_split (tw - sw)); lia|].
  split; [subst py; pose proof (half_split (th - sh)); lia|].
  eapply Forall_impl; [|exact HF]. intros t Ht x y c _ _ _ Hout. exact (Ht x y c Hout).
Qed.

(** C3 (counterexample): a 4-channel (RGBA) batch in pad mode gives a
    3-channel output, whatever the resampling filter computes. *)
Lemma rgba_pad_output_has_3_channels :
  ~ (exists resample : pil_image -> Z -> Z -> Z -> Z -> list Z,
       forall (image : batch) (resolution_preset : string) (pad_image : bool),
         match process resample image resolution_preset pad_image with
         | Ok (outs, _, _) => Forall (fun t => t_channels t = b_channels image) outs
         | Err _ => True
         end).
Proof.
  intros [resample H].
  set (image := {| b_height := 2; b_width := 2; b_channels := 4;
                   b_images := [fun _ _ _ => 1 # 2] |}).
  specialize (H image "480p"%string true).
  assert (E : match process resample image "480p"%string true with
              | Ok (outs, _, _) => map t_channels outs
              | Err _ => []
              end = [3%Z]) by (vm_compute; reflexivity).
  destruct (process resample image "480p"%string true) as [[[outs tw] th]|e];
    [|discriminate E].
  destruct outs as [|t [|t' l]]; try discriminate E.
  inversion E as [Et]. inversion H as [|t0 l0 Ht _]. rewrite Et in Ht. discriminate Ht.
Qed.

(** C3 (amended): in crop mode each output image has the channel count of
    the input; in pad mode each output image has 3 channels, since the
    canvas is an "RGB" image (a 3-channel input keeps 3 channels, a
    4-channel input loses its alpha channel). *)
Theorem output_channel_count resample (image : batch) (resolution_preset : string)
    (pad_image : bool) :
  match process resample image resolution_preset pad_image with
  | Ok (outs, _, _) =>
      Forall (fun t => t_channels t = if pad_image then 3%Z else b_channels image) outs
  | Err _ => True
  end.
Proof.
  unfold process.
  destruct (target_dims resolution_preset (b_width image) (b_height image)) as [tw th].
  destruct (map_result _ (b_images image)) as [outs|e] eqn:M; simpl; [|exact I].
  assert (HF : Forall (fun t => t_channels t = if pad_image then 3%Z else b_channels image)
                      outs).
  { apply (map_result_Forall
      (fun img => process_image resample tw th pad_image (batch_item image img)) _
      (b_images image)); [|exact M].
    intros a b _ Hb. exact (process_image_channels resample tw th pad_image _ b Hb). }
  destruct outs; [exact I | exact HF].
Qed.

(** C2 (counterexample): the sample 0.5 becomes the byte 127 (truncation
    of 127.5), while [round(clip(0.5, 0, 1) * 255)] is 128. *)
Lemma half_sample_truncated_not_rounded :
  to_byte (1 # 2) <> rne (np_clip (1 # 2) 0 1 * 255).
Proof. vm_compute. discriminate. Qed.

(** C2 (amended): for every sample [x] the byte is the floor of
    [255 * clip(x, 0, 1)] computed in float32
    ([np.clip(255. * x, 0, 255).astype(np.uint8)] truncates, it does not
    round; a sample below 0 gives 0 and one above 1 gives 255) and lies in
    [0, 255]; each output sample is the output image's byte divided by 255.0
    in float32. *)
Theorem byte_conversion_truncates (x : Q) :
  to_byte x = Qfloor (f32 (255 * np_clip x 0 1)) /\ (0 <= to_byte x <= 255)%Z /\
  (forall (im : pil_image) (px py c : Z),
     t_at (to_tensor im) py px c =
     f32 (inject_Z (nth (Z.to_nat c) (im_pixel im px py) 0%Z) / 255)).
Proof.
  split; [|split; [apply to_byte_range | reflexivity]].
  unfold to_byte. destruct (Qlt_le_dec x 0) as [Hn|H0].
  - (* below 0: the float32 product is at most 0 and is clipped to 0 *)
    unfold np_clip at 2.
    replace (Qltb x 0) with true by (symmetry; apply Qltb_iff; exact Hn).
    replace (Qfloor (f32 (255 * 0))) with 0%Z by (vm_compute; reflexivity).
    assert (N : f32 (255 * x) <= 0) by (apply f32_nonpos; lra).
    unfold np_clip. destruct (Qltb (f32 (255 * x)) 0) eqn:A; [reflexivity|].
    apply Qltb_false in A.
    replace (Qltb 255 (f32 (255 * x))) with false by (symmetry; apply Qltb_false; lra).
    rewrite py_int_nonneg by exact A.
    assert (Z0 : f32 (255 * x) == 0) by lra. rewrite Z0. reflexivity.
  - destruct (Qlt_le_dec 1 x) as [Hg|H1].
    + (* above 1: the float32 product is at least 255 and is clipped to 255 *)
      unfold np_clip at 2.
      replace (Qltb x 0) with false by (symmetry; apply Qltb_false; exact H0).
      replace (Qltb 1 x) with true by (symmetry; apply Qltb_iff; exact Hg).
      replace (Qfloor (f32 (255 * 1))) with 255%Z by (vm_compute; reflexivity).
      assert (G : 255 <= f32 (255 * x))
        by (apply round_prec_ge_repr; [lia | lra | exact f32_255 | lra]).
      unfold np_clip.
      replace (Qltb (f32 (255 * x)) 0) with false by (symmetry; apply Qltb_false; lra).
      destruct (Qltb 255 (f32 (255 * x))) eqn:B; [reflexivity|].
      apply Qltb_false in B. rewrite py_int_nonneg by lra.
      assert (Z255 : f32 (255 * x) == 255) by lra. rewrite Z255. reflexivity.
    + (* in [0, 1]: no clipping, and [int] of a non-negative float is its floor *)
      unfold np_clip at 2.
      replace (Qltb x 0) with false by (symmetry; apply Qltb_false; exact H0).
      replace (Qltb 1 x) with false by (symmetry; apply Qltb_false; exact H1).
      assert (L : 0 <= f32 (255 * x)) by (apply round_prec_nonneg; [lia | lra]).
      assert (U : f32 (255 * x) <= 255)
        by (apply round_prec_le_repr; [lia | lra | exact f32_255 | lra]).
      unfold np_clip.
      replace (Qltb (f32 (255 * x)) 0) with false by (symmetry; apply Qltb_false; exact L).
      replace (Qltb 255 (f32 (255 * x))) with false by (symmetry; apply Qltb_false; exact U).
      apply py_int_nonneg. exact L.
Qed.

(** C1 (code defect): a 853 x 1 RGB image with preset "480p" in pad mode.
    The target is 852 x 480, [int(852 / 853.0)] is 0, and Pillow's
    [resize] to a zero height raises [ValueError]: no output batch. *)
Theorem pad_wide_strip_raises resample :
  target_dims "480p"%string 853 1 = (852, 480)%Z /\
  pad_plan 853 1 852 480 = (852, 0, 0, 240)%Z /\
  process resample {| b_height := 1; b_width := 853; b_channels := 3;
                      b_images := [fun _ _ _ => 1 # 2] |} "480p"%string true = Err ValueError.
Proof. split; [|split]; vm_compute; reflexivity. Qed.

(** C6 (code defect): a 49 x 49 image with preset "480p" in crop mode.
    The target is 512 x 512, the image is not wider than the target, so
    [new_width = 512] and [new_height = int(49 * (512 / 49))]
    [= int(511.99999999999994) = 511], one row short of the target. *)
Theorem crop_prescale_short_49 :
  target_dims "480p"%string 49 49 = (512, 512)%Z /\
  fmul 49 (fdiv 512 49) < 512 /\
  match crop_plan 49 49 512 512 with
  | Ok (new_width, new_height, _) => new_width = 512%Z /\ new_height = 511%Z
  | Err _ => False
  end.
Proof.
  split; [vm_compute; reflexivity|]. split; [apply Qltb_iff; vm_compute; reflexivity|].
  vm_compute. split; reflexivity.
Qed.

(** C10 (code defect, same slip as C6): for the 49 x 49 image in crop mode
    the crop box is [(0, -0.5, 512, 511.5)] on a 512 x 511 resized image:
    [top < 0] and [bottom > new_height]. *)
Theorem crop_box_outside_49 :
  match crop_plan 49 49 512 512 with
  | Ok (new_width, new_height, (left_, top, right_, bottom)) =>
      new_height = 511%Z /\ top == - (1 # 2) /\ bottom == 1023 # 2 /\
      top < 0 /\ inject_Z new_height < bottom
  | Err _ => False
  end.
Proof.
  vm_compute. split; [reflexivity|]. split; [reflexivity|]. split; [reflexivity|].
  split; reflexivity.
Qed.

(** A successful run in pad mode: the 1000 x 500 scenario of the spec. *)
Example pad_run_1000x500 :
  match process (fun _ _ _ _ _ => [0; 0; 0]%Z)
          {| b_height := 500; b_width := 1000; b_channels := 3;
             b_images := [fun _ _ _ => 1 # 2; fun _ _ _ => 1] |} "480p"%string true with
  | Ok (outs, tw, th) =>
      tw = 852%Z /\ th = 480%Z /\ length outs = 2%nat /\
      pad_plan 1000 500 852 480 = (852, 426, 0, 27)%Z
  | Err _ => False
  end.
Proof. vm_compute. repeat split. Qed.
